(** * Soutien: dependency-gated callables

    A shallow embedding of [Soutien::GuardedFunction] (src/Soutien.h) and of
    straight-line client code in the style of src/main.cpp.

    Reading guide for the embedding:
    - [std::cout] is the character sequence written so far ([cout]);
    - a wrapped callable is an object: what it holds by value ([held]) and
      the body of its call operator ([body]), which acts on the [World] and
      on what the callable holds, and either returns or throws ([Outcome]);
    - [std::tuple<Requirements...>] holds its elements BY VALUE, so the
      requirements of a task are task values ([mRequirements]), not
      references to the objects they were copied from;
    - a member function runs on a [Frame]: the object it was called on
      ([this]), the world, and a ghost counter of entries into [mFunction];
      it completes normally ([Done]) or by a throw ([Throw]). *)

From Stdlib Require Import String Ascii List Bool Arith Lia.
Import ListNotations.
Local Open Scope string_scope.

(** ** Strings as stream contents *)

(** The line feed, [\n] in the source's literals. *)
Definition newline : string := String "010"%char EmptyString.

(** The text of a sequence of lines written one after the other. *)
Definition lines_text (ls : list string) : string := fold_right append "" ls.

Section Soutien.

(** What a wrapped callable may throw. *)
Variable Exn : Type.
(** Program state a wrapped callable can reach besides [std::cout]
    (globals, objects captured by reference). *)
Variable Env : Type.
(** What a wrapped callable holds by value: the captures of a lambda, the
    data members of a function object. *)
Variable Captures : Type.

Record World := mkWorld { cout : string; env : Env }.

Definition put_cout (w : World) (s : string) : World :=
  {| cout := cout w ++ s; env := env w |}.

(** A call of a [Func]: it returns, or it throws; either way it leaves a
    world behind, and it leaves the callable holding what the call made of
    it (the call operator of a [mutable] lambda or of a function object may
    be non-const).  The guarded-function objects are not part of the world:
    a callable does not reach into them (the lambdas of main.cpp capture
    nothing, and the data members are private). *)
Inductive Outcome :=
| Returned (c : Captures) (w : World)
| Raised (e : Exn) (c : Captures) (w : World).

(** A callable object: what it holds, and the body of its call operator.
    Copying the object copies what it holds. *)
Record Func := mkFunc {
  held : Captures;
  body : Captures -> World -> Outcome
}.

(** [f()] in world [w]. *)
Definition call (f : Func) (w : World) : Outcome := body f (held f) w.

(** The callable [f] holding [c]. *)
Definition holding (f : Func) (c : Captures) : Func :=
  {| held := c; body := body f |}.

(** The world and the captures a call leaves behind. *)
Definition left_by (o : Outcome) : World :=
  match o with Returned _ w => w | Raised _ _ w => w end.

Definition held_after (o : Outcome) : Captures :=
  match o with Returned c _ => c | Raised _ c _ => c end.

(** [struct GuardedFunction]: the four data members, in declaration
    order.  The template pack [Requirements...] is instantiated, as in
    main.cpp, with other guarded functions. *)
#[warnings="-register-all"]
Inductive GuardedFunction := mkGuardedFunction {
  mFunction : Func;
  mName : string;
  mRequirements : list GuardedFunction;
  mSatisfied : bool
}.

(** The constructor: [mSatisfied { false }] is the default member
    initialiser, the other members are copied from the arguments. *)
Definition construct (func : Func) (name : string)
           (reqs : list GuardedFunction) : GuardedFunction :=
  {| mFunction := func; mName := name; mRequirements := reqs;
     mSatisfied := false |}.

Definition createGuardedFunction (f : Func) (name : string)
           (deps : list GuardedFunction) : GuardedFunction :=
  construct f name deps.

(** The object once its callable has been called and holds [c]: the
    member [mFunction] is called in place, in a non-const member function. *)
Definition after_call (t : GuardedFunction) (c : Captures) : GuardedFunction :=
  {| mFunction := holding (mFunction t) c; mName := mName t;
     mRequirements := mRequirements t; mSatisfied := mSatisfied t |}.

(** [bool satisfied() const] and [const char* name() const]. *)
Definition satisfied (t : GuardedFunction) : bool := mSatisfied t.
Definition name (t : GuardedFunction) : string := mName t.

(** ** Member functions as computations on a frame *)

Record Frame := mkFrame {
  this : GuardedFunction;
  world : World;
  entered : nat   (* ghost: how many times [mFunction()] was entered *)
}.

Inductive Result (A : Type) :=
| Done (a : A) (s : Frame)
| Throw (e : Exn) (s : Frame).
Arguments Done {A} a s.
Arguments Throw {A} e s.

Definition Method (A : Type) := Frame -> Result A.

Definition ret {A} (a : A) : Method A := fun s => Done a s.

Definition bind {A B} (m : Method A) (k : A -> Method B) : Method B :=
  fun s => match m s with
           | Done a s' => k a s'
           | Throw e s' => Throw e s'
           end.

Notation "x <- m ;; k" := (bind m (fun x => k))
  (at level 61, m at next level, right associativity).
Notation "m ;;; k" := (bind m (fun _ => k))
  (at level 61, right associativity).

(** Read a member of [*this]. *)
Definition member {A} (field : GuardedFunction -> A) : Method A :=
  fun s => Done (field (this s)) s.

(** [std::cout << s]. *)
Definition write (s : string) : Method unit :=
  fun fr => Done tt {| this := this fr; world := put_cout (world fr) s;
                       entered := entered fr |}.

(** [mFunction();] the member is called in place, so what it holds after
    the call stays in the object; a throw leaves by [Throw], nothing
    catches it. *)
Definition call_mFunction : Method unit :=
  fun fr => match call (mFunction (this fr)) (world fr) with
            | Returned c w' =>
                Done tt {| this := after_call (this fr) c; world := w';
                           entered := S (entered fr) |}
            | Raised e c w' =>
                Throw e {| this := after_call (this fr) c; world := w';
                           entered := S (entered fr) |}
            end.

(** [mSatisfied = b;] *)
Definition assign_mSatisfied (b : bool) : Method unit :=
  fun fr =>
    let t := this fr in
    Done tt {| this := {| mFunction := mFunction t; mName := mName t;
                          mRequirements := mRequirements t;
                          mSatisfied := b |};
               world := world fr; entered := entered fr |}.

(** The last literal of the diagnostic: a backquote and a line feed. *)
Definition backquote_newline : string :=
  String "`"%char (String "010"%char EmptyString).

(** One element of the fold expression, lines 18-20:
    [req.satisfied() || (std::cout << ... , false)]. *)
Definition requirement_met (req : GuardedFunction) : Method bool :=
  if satisfied req then ret true
  else
    write "Dependency `" ;;;
    write (name req) ;;;
    write "` not met. Blocking `" ;;;
    blocked <- member mName ;;
    write blocked ;;;
    write backquote_newline ;;;
    ret false.

(** The comma fold over the pack, left to right; each element does
    [allMet &= ...], whose right operand is evaluated whatever [allMet]
    is. *)
Fixpoint fold_requirements (reqs : list GuardedFunction) (allMet : bool)
  : Method bool :=
  match reqs with
  | [] => ret allMet
  | req :: rest =>
      met <- requirement_met req ;;
      fold_requirements rest (allMet && met)
  end.

(** [void operator()()]. *)
Definition operator_call : Method unit :=
  reqs <- member mRequirements ;;
  allMet <- fold_requirements reqs true ;;
  if allMet then
    call_mFunction ;;;
    assign_mSatisfied true
  else ret tt.

(** The state a call leaves behind, however it completed. *)
Definition frame_of {A} (r : Result A) : Frame :=
  match r with Done _ s => s | Throw _ s => s end.

Definition thrown {A} (r : Result A) : option Exn :=
  match r with Done _ _ => None | Throw e _ => Some e end.

(** [t();] from client code, in world [w]. *)
Definition invoke (t : GuardedFunction) (w : World) : Result unit :=
  operator_call {| this := t; world := w; entered := 0 |}.

(** ** The public interface, one call at a time *)

Inductive Call := CallInvoke | CallSatisfied | CallName.

Inductive Value := VVoid | VBool (b : bool) | VName (n : string).

Definition perform (c : Call) : Method Value :=
  match c with
  | CallInvoke => operator_call ;;; ret VVoid
  | CallSatisfied => b <- member satisfied ;; ret (VBool b)
  | CallName => n <- member name ;; ret (VName n)
  end.

(** A caller that goes on using the object after each call, also after a
    call that threw (the caller caught the fault). *)
Fixpoint perform_all (cs : list Call) (s : Frame) : Frame :=
  match cs with
  | [] => s
  | c :: rest => perform_all rest (frame_of (perform c s))
  end.

(** ** Client code: local variables holding guarded functions

    [Create x f n deps] is [auto x = createGuardedFunction(f, n, deps...);]
    and [Invoke x] is [x();].  The parameters of [createGuardedFunction]
    and of the constructor are taken by value and the tuple stores values:
    the new object receives the values the variables [deps] hold when the
    statement runs. *)

Inductive Stmt :=
| Create (x : string) (f : Func) (n : string) (deps : list string)
| Invoke (x : string).

Definition Store := string -> option GuardedFunction.

Definition no_variables : Store := fun _ => None.

Definition assign (x : string) (t : GuardedFunction) (st : Store) : Store :=
  fun y => if String.eqb x y then Some t else st y.

Fixpoint values_of (st : Store) (xs : list string)
  : option (list GuardedFunction) :=
  match xs with
  | [] => Some []
  | x :: rest =>
      match st x, values_of st rest with
      | Some t, Some ts => Some (t :: ts)
      | _, _ => None
      end
  end.

Record Machine := mkMachine { store : Store; outside : World }.

Inductive Run :=
| Finished (m : Machine)
| Uncaught (e : Exn) (m : Machine)
| NoSuchVariable.

Definition exec_stmt (s : Stmt) (m : Machine) : Run :=
  match s with
  | Create x f n deps =>
      match values_of (store m) deps with
      | Some copies =>
          Finished {| store := assign x (createGuardedFunction f n copies)
                                      (store m);
                      outside := outside m |}
      | None => NoSuchVariable
      end
  | Invoke x =>
      match store m x with
      | Some t =>
          match invoke t (outside m) with
          | Done _ fr =>
              Finished {| store := assign x (this fr) (store m);
                          outside := world fr |}
          | Throw e fr =>
              Uncaught e {| store := assign x (this fr) (store m);
                            outside := world fr |}
          end
      | None => NoSuchVariable
      end
  end.

Fixpoint exec (p : list Stmt) (m : Machine) : Run :=
  match p with
  | [] => Finished m
  | s :: rest =>
      match exec_stmt s m with
      | Finished m' => exec rest m'
      | stopped => stopped
      end
  end.

(** The object a variable holds when the run has finished. *)
Definition value_of (r : Run) (x : string) : option GuardedFunction :=
  match r with
  | Finished m => store m x
  | _ => None
  end.

(** [x.satisfied()] for a variable of a finished run. *)
Definition reports_satisfied (r : Run) (x : string) : option bool :=
  option_map satisfied (value_of r x).

Definition final_world (r : Run) : option World :=
  match r with
  | Finished m => Some (outside m)
  | _ => None
  end.

Definition printed (r : Run) : option string :=
  match r with
  | Finished m => Some (cout (outside m))
  | _ => None
  end.

(** A callable that only prints, like the lambdas of main.cpp. *)
Definition says (c : Captures) (text : string) : Func :=
  {| held := c; body := fun c' w => Returned c' (put_cout w text) |}.

(** A callable that always returns: it holds [c] at first, and a call
    changes what it holds and the world by [g]. *)
Definition returning (c : Captures)
           (g : Captures -> World -> Captures * World) : Func :=
  {| held := c;
     body := fun c' w => Returned (fst (g c' w)) (snd (g c' w)) |}.

(** ** What the diagnostics look like

    The text the five insertions of lines 19-20 leave on the stream for an
    unmet requirement with name [dep] of the task with name [blocked]. *)
Definition diagnostic (blocked dep : string) : string :=
  "Dependency `" ++ dep ++ "` not met. Blocking `" ++ blocked
    ++ backquote_newline.

(** The requirements that [satisfied()] answers false for, in tuple
    order. *)
Definition unmet (reqs : list GuardedFunction) : list GuardedFunction :=
  filter (fun req => negb (satisfied req)) reqs.

Definition report (blocked : string) (reqs : list GuardedFunction) : string :=
  lines_text (map (fun req => diagnostic blocked (name req)) (unmet reqs)).

(** The same object with the flag set. *)
Definition now_satisfied (t : GuardedFunction) : GuardedFunction :=
  {| mFunction := mFunction t; mName := mName t;
     mRequirements := mRequirements t; mSatisfied := true |}.

End Soutien.

Arguments mkWorld {Env} cout env.
Arguments cout {Env} w.
Arguments env {Env} w.
Arguments put_cout {Env} w s.
Arguments Returned {Exn Env Captures} c w.
Arguments Raised {Exn Env Captures} e c w.
Arguments mkFunc {Exn Env Captures} held body.
Arguments held {Exn Env Captures} f.
Arguments body {Exn Env Captures} f _ _.
Arguments call {Exn Env Captures} f w.
Arguments holding {Exn Env Captures} f c.
Arguments held_after {Exn Env Captures} o.
Arguments after_call {Exn Env Captures} t c.
Arguments mkGuardedFunction {Exn Env Captures} mFunction mName mRequirements mSatisfied.
Arguments mFunction {Exn Env Captures} g.
Arguments mName {Exn Env Captures} g.
Arguments mRequirements {Exn Env Captures} g.
Arguments mSatisfied {Exn Env Captures} g.
Arguments construct {Exn Env Captures} func name reqs.
Arguments createGuardedFunction {Exn Env Captures} f name deps.
Arguments satisfied {Exn Env Captures} t.
Arguments name {Exn Env Captures} t.
Arguments mkFrame {Exn Env Captures} this world entered.
Arguments this {Exn Env Captures} f.
Arguments world {Exn Env Captures} f.
Arguments entered {Exn Env Captures} f.
Arguments Done {Exn Env Captures A} a s.
Arguments Throw {Exn Env Captures A} e s.
Arguments ret {Exn Env Captures A} a s.
Arguments bind {Exn Env Captures A B} m k s.
Arguments member {Exn Env Captures A} field s.
Arguments write {Exn Env Captures} s fr.
Arguments call_mFunction {Exn Env Captures} fr.
Arguments assign_mSatisfied {Exn Env Captures} b fr.
Arguments requirement_met {Exn Env Captures} req s.
Arguments fold_requirements {Exn Env Captures} reqs allMet s.
Arguments operator_call {Exn Env Captures} s.
Arguments frame_of {Exn Env Captures A} r.
Arguments thrown {Exn Env Captures A} r.
Arguments invoke {Exn Env Captures} t w.
Arguments perform {Exn Env Captures} c s.
Arguments perform_all {Exn Env Captures} cs s.
Arguments Create {Exn Env Captures} x f n deps.
Arguments Invoke {Exn Env Captures} x.
Arguments no_variables {Exn Env Captures} _.
Arguments assign {Exn Env Captures} x t st _.
Arguments values_of {Exn Env Captures} st xs.
Arguments mkMachine {Exn Env Captures} store outside.
Arguments store {Exn Env Captures} m _.
Arguments outside {Exn Env Captures} m.
Arguments Finished {Exn Env Captures} m.
Arguments Uncaught {Exn Env Captures} e m.
Arguments NoSuchVariable {Exn Env Captures}.
Arguments exec_stmt {Exn Env Captures} s m.
Arguments exec {Exn Env Captures} p m.
Arguments value_of {Exn Env Captures} r x.
Arguments reports_satisfied {Exn Env Captures} r x.
Arguments final_world {Exn Env Captures} r.
Arguments printed {Exn Env Captures} r.
Arguments left_by {Exn Env Captures} o.
Arguments says {Exn Env Captures} c text.
Arguments returning {Exn Env Captures} c g.
Arguments unmet {Exn Env Captures} reqs.
Arguments report {Exn Env Captures} blocked reqs.
Arguments now_satisfied {Exn Env Captures} t.

(** ** The diagnostic as the specification words it

    Section 6 of the specification writes the line with apostrophes and
    without a line terminator. *)
Definition spec_diagnostic (blocked dep : string) : string :=
  "Dependency '" ++ dep ++ "' not met. Blocking '" ++ blocked ++ "'".

(** ** Concrete programs

    Faults are strings, and the only state besides the stream is a counter
    that a callable may bump. *)
Module Demo.

Definition W := World nat.
Definition Task := GuardedFunction string nat nat.

Definition start : W := {| cout := ""; env := 0 |}.

(** The four lambdas of main.cpp. *)
Definition a : Func string nat nat := says 0 ("a() executed" ++ newline).
Definition b : Func string nat nat := says 0 ("b() executed" ++ newline).
Definition c : Func string nat nat := says 0 ("c() executed" ++ newline).
Definition d : Func string nat nat := says 0 ("d() executed" ++ newline).

(** [[&]{ ++counter; }] *)
Definition bump : Func string nat nat :=
  {| held := 0;
     body := fun h w => Returned h {| cout := cout w; env := S (env w) |} |}.

(** [[]{ throw "boom"; }] *)
Definition boom : Func string nat nat :=
  {| held := 0; body := fun h w => Raised "boom" h w |}.

(** A callable that works the first time and throws afterwards:
    [[&]{ if (counter++ > 0) throw "again"; }] *)
Definition once : Func string nat nat :=
  {| held := 0;
     body := fun h w =>
               let w' := {| cout := cout w; env := S (env w) |} in
               if Nat.ltb 0 (env w) then Raised "again" h w'
               else Returned h w' |}.


(** The body of [main] in main.cpp, statement by statement. *)
Definition main : list (Stmt string nat nat) :=
  [ Create "task_a" a "a" [];
    Invoke "task_a";
    Create "task_b" b "b" [];
    Create "task_c" c "c" ["task_a"; "task_b"];
    Invoke "task_c";
    Create "task_d" d "d" ["task_c"];
    Invoke "task_d" ].

(** The scenario A, B, C on (A, B), D on (C): all four constructed, then
    invoked in dependency order. *)
Definition constructed_first : list (Stmt string nat nat) :=
  [ Create "A" a "a" [];
    Create "B" b "b" [];
    Create "C" c "c" ["A"; "B"];
    Create "D" d "d" ["C"];
    Invoke "A";
    Invoke "B";
    Invoke "C";
    Invoke "D" ].

Definition machine0 : Machine string nat nat :=
  {| store := no_variables; outside := start |}.

(** [task_c] of main.cpp at its call: it holds a copy of [task_a] made
    after [task_a()] and a copy of [task_b], which was never called. *)
Definition task_a_called : Task := now_satisfied (createGuardedFunction a "a" []).
Definition task_b : Task := createGuardedFunction b "b" [].
Definition task_c : Task := createGuardedFunction c "c" [task_a_called; task_b].

(** Tasks without requirements around [bump], [boom] and [once]. *)
Definition bumper : Task := createGuardedFunction bump "bump" [].
Definition faulty : Task := createGuardedFunction boom "boom" [].
Definition one_shot : Task := createGuardedFunction once "once" [].

(** A fresh task with requirements x (unsatisfied), y (satisfied),
    z (unsatisfied). *)
Definition x : Task := createGuardedFunction a "x" [].
Definition y : Task := now_satisfied (createGuardedFunction b "y" []).
Definition z : Task := createGuardedFunction c "z" [].
Definition xyz : Task := createGuardedFunction bump "t" [x; y; z].

End Demo.

(** The same scenario with each task constructed once the tasks it
    depends on have been invoked. *)
Definition constructed_in_turn {Exn Env Captures : Type}
           (a b c d : Func Exn Env Captures) : list (Stmt Exn Env Captures) :=
  [ Create "A" a "a" [];
    Invoke "A";
    Create "B" b "b" [];
    Invoke "B";
    Create "C" c "c" ["A"; "B"];
    Invoke "C";
    Create "D" d "d" ["C"];
    Invoke "D" ].

(** ** Vocabulary for call sequences and whole programs *)

(** How many calls of the call operator a sequence of calls holds. *)
Fixpoint invocations (cs : list Call) : nat :=
  match cs with
  | [] => 0
  | CallInvoke :: rest => S (invocations rest)
  | _ :: rest => invocations rest
  end.

(** The text [s] written [k] times in a row. *)
Fixpoint times (k : nat) (s : string) : string :=
  match k with
  | 0 => ""
  | S k' => s ++ times k' s
  end.

(** The statement introduces the variable [x]. *)
Definition creates {Exn Env Captures : Type} (x : string) (s : Stmt Exn Env Captures) : bool :=
  match s with
  | Create y _ _ _ => String.eqb x y
  | Invoke _ => false
  end.

(** The machine a run stopped in, when every variable it used existed. *)
Definition machine_of {Exn Env Captures : Type} (r : Run Exn Env Captures)
  : option (Machine Exn Env Captures) :=
  match r with
  | Finished m => Some m
  | Uncaught _ m => Some m
  | NoSuchVariable => None
  end.

(** The task and every copy in its requirement tree have the flag set. *)
Fixpoint tree_satisfied {Exn Env Captures : Type} (t : GuardedFunction Exn Env Captures) : bool :=
  match t with
  | mkGuardedFunction _ _ reqs flag => flag && forallb tree_satisfied reqs
  end.

(** A set flag comes with set flags in all stored requirements, here and
    in every copy below. *)
Fixpoint coherent {Exn Env Captures : Type} (t : GuardedFunction Exn Env Captures) : bool :=
  match t with
  | mkGuardedFunction _ _ reqs flag =>
      (negb flag || forallb satisfied reqs) && forallb coherent reqs
  end.

Definition coherent_store {Exn Env Captures : Type} (st : Store Exn Env Captures) : Prop :=
  forall x t, st x = Some t -> coherent t = true.

(** The body of [main] in main.cpp for any four callables:
    [GUARDED_FUNCTION(c, task_a, task_b)] expands to
    [createGuardedFunction(c, "c", task_a, task_b)]. *)
Definition main_body {Exn Env Captures : Type}
           (a b c d : Func Exn Env Captures) : list (Stmt Exn Env Captures) :=
  [ Create "task_a" a "a" [];
    Invoke "task_a";
    Create "task_b" b "b" [];
    Create "task_c" c "c" ["task_a"; "task_b"];
    Invoke "task_c";
    Create "task_d" d "d" ["task_c"];
    Invoke "task_d" ].

(** A dependent constructed before the task it depends on is called. *)
Definition dependent_first : list (Stmt string nat nat) :=
  [ Create "A" Demo.bump "a" [];
    Create "C" Demo.bump "c" ["A"];
    Invoke "A";
    Invoke "C";
    Invoke "A";
    Invoke "C" ].

(** * Properties *)

(** ** Stream contents *)

Lemma append_assoc (a b c : string) : (a ++ b) ++ c = a ++ (b ++ c).
Proof. induction a as [|ch a IH]; simpl; [reflexivity | now rewrite IH]. Qed.

Lemma append_nil_r (a : string) : a ++ "" = a.
Proof. induction a as [|ch a IH]; simpl; [reflexivity | now rewrite IH]. Qed.

Lemma lines_text_app (l1 l2 : list string) :
  lines_text (l1 ++ l2)%list = lines_text l1 ++ lines_text l2.
Proof.
  induction l1 as [|l l1 IH]; simpl; [reflexivity|].
  now rewrite IH, append_assoc.
Qed.

Section Properties.

Variables Exn Env Captures : Type.

Implicit Types (t req : GuardedFunction Exn Env Captures) (w : World Env).
Implicit Types (reqs : list (GuardedFunction Exn Env Captures)) (s : Frame Exn Env Captures).

(** ** The gate *)

Lemma unmet_app reqs1 reqs2 :
  unmet (reqs1 ++ reqs2)%list = (unmet reqs1 ++ unmet reqs2)%list.
Proof. unfold unmet. apply filter_app. Qed.

Lemma report_nil blocked : report blocked (@nil (GuardedFunction Exn Env Captures)) = "".
Proof. reflexivity. Qed.

Lemma report_cons blocked req reqs :
  report blocked (req :: reqs) =
  (if satisfied req then "" else diagnostic blocked (name req))
    ++ report blocked reqs.
Proof. unfold report, unmet. simpl. now destruct (satisfied req). Qed.

Lemma report_app blocked reqs1 reqs2 :
  report blocked (reqs1 ++ reqs2)%list = report blocked reqs1 ++ report blocked reqs2.
Proof. unfold report. now rewrite unmet_app, map_app, lines_text_app. Qed.

Lemma report_unmet blocked req reqs :
  satisfied req = false ->
  report blocked (req :: reqs) =
  diagnostic blocked (name req) ++ report blocked reqs.
Proof. intros H. now rewrite report_cons, H. Qed.

Lemma all_met_forallb reqs :
  (forall req, In req reqs -> satisfied req = true) ->
  forallb satisfied reqs = true.
Proof. intros H. apply forallb_forall. exact H. Qed.

Lemma all_met_report blocked reqs :
  (forall req, In req reqs -> satisfied req = true) ->
  report blocked reqs = "".
Proof.
  induction reqs as [|r reqs IH]; intros H; [reflexivity|].
  rewrite report_cons, (H r (or_introl eq_refl)). simpl.
  apply IH. intros req Hin. apply H. now right.
Qed.

Lemma all_met_unmet reqs :
  (forall req, In req reqs -> satisfied req = true) ->
  unmet reqs = [].
Proof.
  induction reqs as [|r reqs IH]; intros H; [reflexivity|].
  unfold unmet. simpl. rewrite (H r (or_introl eq_refl)). simpl.
  apply IH. intros req Hin. apply H. now right.
Qed.

Lemma some_unmet_forallb req reqs :
  In req reqs -> satisfied req = false -> forallb satisfied reqs = false.
Proof.
  intros Hin Hreq. destruct (forallb satisfied reqs) eqn:E; [|reflexivity].
  rewrite forallb_forall in E. rewrite (E req Hin) in Hreq. discriminate.
Qed.

(** One element of the fold: it answers [req.satisfied()], and writes the
    diagnostic exactly when the answer is false. *)
Lemma requirement_met_run req t out e n :
  requirement_met req (mkFrame t (mkWorld out e) n) =
  Done (satisfied req)
       (mkFrame t
          (mkWorld (out ++ (if satisfied req then ""
                            else diagnostic (mName t) (name req))) e) n).
Proof.
  unfold requirement_met. destruct (satisfied req).
  - unfold ret. now rewrite append_nil_r.
  - unfold bind, write, member, ret, put_cout, diagnostic. simpl.
    now rewrite !append_assoc.
Qed.

(** The whole fold: every element is evaluated, the flag is the
    conjunction, the stream receives the report. *)
Lemma fold_requirements_run reqs : forall allMet t out e n,
  fold_requirements reqs allMet (mkFrame t (mkWorld out e) n) =
  Done (allMet && forallb satisfied reqs)
       (mkFrame t (mkWorld (out ++ report (mName t) reqs) e) n).
Proof.
  induction reqs as [|req reqs IH]; intros allMet t out e n.
  - simpl. unfold ret. now rewrite andb_true_r, report_nil, append_nil_r.
  - cbn [fold_requirements]. unfold bind at 1.
    rewrite requirement_met_run, IH, report_cons, append_assoc.
    simpl. now rewrite andb_assoc.
Qed.

(** The call operator in one equation: the fold, then the branch. *)
Lemma operator_call_run t out e n :
  operator_call (mkFrame t (mkWorld out e) n) =
  let w := mkWorld (out ++ report (mName t) (mRequirements t)) e in
  if forallb satisfied (mRequirements t) then
    match call (mFunction t) w with
    | Returned c w' =>
        Done tt (mkFrame (now_satisfied (after_call t c)) w' (S n))
    | Raised x c w' => Throw x (mkFrame (after_call t c) w' (S n))
    end
  else Done tt (mkFrame t w n).
Proof.
  unfold operator_call. unfold bind at 1, member at 1. cbn [this].
  unfold bind at 1. rewrite fold_requirements_run. cbn [andb].
  cbv zeta. destruct (forallb satisfied (mRequirements t)); [|reflexivity].
  unfold bind, call_mFunction. cbn [this world entered].
  destruct (call (mFunction t) (mkWorld _ e)); reflexivity.
Qed.

(** A call whose gate is closed. *)
Lemma invoke_blocked t w :
  forallb satisfied (mRequirements t) = false ->
  invoke t w =
  Done tt (mkFrame t (put_cout w (report (mName t) (mRequirements t))) 0).
Proof.
  intros H. destruct w as [out e]. unfold invoke.
  rewrite operator_call_run, H. reflexivity.
Qed.

(** A call whose gate is open. *)
Lemma invoke_open t w :
  (forall req, In req (mRequirements t) -> satisfied req = true) ->
  invoke t w =
  match call (mFunction t) w with
  | Returned c w' => Done tt (mkFrame (now_satisfied (after_call t c)) w' 1)
  | Raised e c w' => Throw e (mkFrame (after_call t c) w' 1)
  end.
Proof.
  intros H. destruct w as [out e]. unfold invoke.
  rewrite operator_call_run, (all_met_forallb _ H), (all_met_report _ _ H).
  cbv zeta. now rewrite append_nil_r.
Qed.

(** A call that leaves the callable holding what it held leaves the object
    as it was. *)
Lemma after_call_held t : after_call t (held (mFunction t)) = t.
Proof. destruct t as [[h b] n reqs flag]. reflexivity. Qed.

(** ** Diagnostics *)

(** C2, as the code has it: when some requirement is unmet, one call writes,
    for each unmet requirement in turn, the text
    Dependency `<dep-name>` not met. Blocking `<task-name>`
    followed by a line feed, the names set off by backquotes, and writes
    nothing else. *)
Theorem C2_diagnostic_between_backquotes t w :
  unmet (mRequirements t) <> [] ->
  invoke t w =
  Done tt
    (mkFrame t
       (put_cout w
          (lines_text
             (map (fun req =>
                     "Dependency `" ++ name req ++ "` not met. Blocking `"
                       ++ mName t ++ "`" ++ newline)
                  (unmet (mRequirements t)))))
       0).
Proof.
  intros H. apply invoke_blocked.
  destruct (forallb satisfied (mRequirements t)) eqn:E; [|reflexivity].
  exfalso. apply H, all_met_unmet. now apply forallb_forall.
Qed.

(** C3: the check is not short-circuited.  Wherever an unsatisfied
    requirement stands in the list, and whatever the requirements before it
    answered, one call writes its diagnostic: the stream receives the
    report of the requirements before it, its diagnostic, and the report
    of the requirements after it. *)
Theorem C3_every_unmet_requirement_reported t w req :
  In req (mRequirements t) ->
  satisfied req = false ->
  exists before after,
    mRequirements t = (before ++ req :: after)%list /\
    invoke t w =
    Done tt
      (mkFrame t
         (put_cout w
            (report (mName t) before
               ++ diagnostic (mName t) (name req)
               ++ report (mName t) after))
         0).
Proof.
  intros Hin Hreq.
  destruct (in_split _ _ Hin) as (before & after & Hsplit).
  exists before, after. split; [exact Hsplit|].
  rewrite (invoke_blocked t w (some_unmet_forallb _ _ Hin Hreq)).
  now rewrite Hsplit, report_app, (report_unmet _ _ _ Hreq).
Qed.

(** C9: diagnostics come in the order of the requirement list.  If [r1]
    stands before [r2] in the list and both are unsatisfied, the text one
    call writes has the diagnostic of [r1] before that of [r2], separated
    exactly by the report of the requirements between them. *)
Theorem C9_diagnostics_in_construction_order t w l1 r1 l2 r2 l3 :
  mRequirements t = (l1 ++ r1 :: l2 ++ r2 :: l3)%list ->
  satisfied r1 = false ->
  satisfied r2 = false ->
  cout (world (frame_of (invoke t w))) =
  cout w
    ++ report (mName t) l1
    ++ diagnostic (mName t) (name r1)
    ++ report (mName t) l2
    ++ diagnostic (mName t) (name r2)
    ++ report (mName t) l3.
Proof.
  intros Hreqs H1 H2.
  assert (Hin : In r1 (mRequirements t))
    by (rewrite Hreqs; apply in_elt).
  rewrite (invoke_blocked t w (some_unmet_forallb _ _ Hin H1)).
  cbn [frame_of world put_cout cout]. rewrite Hreqs.
  rewrite report_app, (report_unmet _ _ _ H1).
  now rewrite report_app, (report_unmet _ _ _ H2).
Qed.

(** ** Gating *)


(** C5: when some requirement answers unsatisfied, the work is not
    entered, the object is left as it was (its flag included), the call
    returns normally, and the world only gains the report on the stream. *)
Theorem C5_closed_gate_skips_work t w req :
  In req (mRequirements t) ->
  satisfied req = false ->
  invoke t w =
  Done tt (mkFrame t (put_cout w (report (mName t) (mRequirements t))) 0) /\
  entered (frame_of (invoke t w)) = 0 /\
  thrown (invoke t w) = None /\
  satisfied (this (frame_of (invoke t w))) = satisfied t /\
  env (world (frame_of (invoke t w))) = env w.
Proof.
  intros Hin Hreq.
  rewrite (invoke_blocked t w (some_unmet_forallb _ _ Hin Hreq)).
  repeat split.
Qed.

(** C7: when the gate is open and the work throws, the call leaves by
    the same throw, with the world as the work left it; name, stored
    requirements and flag of the object are untouched (only what the
    callable holds is what the work made of it): the flag is not
    assigned, so the flag of a task that was not satisfied is left
    false. *)
Theorem C7_fault_passes_through t w e c w' :
  (forall req, In req (mRequirements t) -> satisfied req = true) ->
  call (mFunction t) w = Raised e c w' ->
  invoke t w = Throw e (mkFrame (after_call t c) w' 1) /\
  thrown (invoke t w) = Some e /\
  this (frame_of (invoke t w)) = after_call t c /\
  mSatisfied (this (frame_of (invoke t w))) = mSatisfied t /\
  (satisfied t = false ->
   satisfied (this (frame_of (invoke t w))) = false).
Proof.
  intros Hall Hrun. rewrite (invoke_open t w Hall), Hrun.
  repeat split. intros Hflag. exact Hflag.
Qed.

(** C8: a second call runs the work again.  For a task without
    requirements, whatever its flag, each of two calls in a row enters the
    work once, the second one on the world the first one left and with the
    callable holding what the first one left in it (also when the first
    call has set the flag). *)
Theorem C8_second_call_runs_work_again t w :
  mRequirements t = [] ->
  let o1 := call (mFunction t) w in
  let s1 := frame_of (invoke t w) in
  let s2 := frame_of (invoke (this s1) (world s1)) in
  entered s1 = 1 /\ entered s2 = 1 /\
  world s1 = left_by o1 /\
  world s2 =
  left_by (call (holding (mFunction t) (held_after o1)) (left_by o1)).
Proof.
  intros Hnone.
  assert (Hall : forall req, In req (mRequirements t) -> satisfied req = true)
    by (rewrite Hnone; intros req []).
  cbv zeta. rewrite (invoke_open t w Hall).
  destruct (call (mFunction t) w) as [c1 w1|e1 c1 w1] eqn:E1;
    cbn [frame_of this world entered left_by held_after].
  - assert (Hall' : forall req,
               In req (mRequirements (now_satisfied (after_call t c1))) ->
               satisfied req = true) by exact Hall.
    rewrite (invoke_open (now_satisfied (after_call t c1)) w1 Hall').
    cbn [now_satisfied after_call mFunction].
    destruct (call (holding (mFunction t) c1) w1); repeat split.
  - assert (Hall' : forall req, In req (mRequirements (after_call t c1)) ->
                                satisfied req = true) by exact Hall.
    rewrite (invoke_open (after_call t c1) w1 Hall').
    cbn [after_call mFunction].
    destruct (call (holding (mFunction t) c1) w1); repeat split.
Qed.

(** ** The flag and the frame *)

(** What the call operator may do to the object it is called on: nothing,
    or change what the callable holds, with or without setting the flag. *)
Lemma operator_call_this s :
  this (frame_of (operator_call s)) = this s \/
  exists c,
    this (frame_of (operator_call s)) = after_call (this s) c \/
    this (frame_of (operator_call s)) = now_satisfied (after_call (this s) c).
Proof.
  destruct s as [t [out e] n]. rewrite operator_call_run. cbv zeta.
  destruct (forallb satisfied (mRequirements t)); [|now left].
  destruct (call (mFunction t) (mkWorld _ e)) as [c w'|x c w'];
    right; exists c; [now right | now left].
Qed.

Lemma perform_invoke_frame s :
  frame_of (perform CallInvoke s) = frame_of (operator_call s).
Proof.
  unfold perform, bind. now destruct (operator_call s).
Qed.

Lemma perform_keeps_flag c s :
  satisfied (this s) = true ->
  satisfied (this (frame_of (perform c s))) = true.
Proof.
  intros H. destruct c; [|exact H|exact H].
  rewrite perform_invoke_frame.
  destruct (operator_call_this s) as [E|[c [E|E]]]; rewrite E;
    [exact H | exact H | reflexivity].
Qed.

(** C6: the flag is false in a newly constructed task, and it is one-way:
    from a state where it is true, no sequence of calls of the call
    operator, of satisfied() and of name() leads to a state where it is
    false. *)
Theorem C6_flag_starts_false_and_never_resets f n reqs cs :
  satisfied (construct f n reqs) = false /\
  forall s, satisfied (this s) = true ->
            satisfied (this (perform_all cs s)) = true.
Proof.
  split; [reflexivity|].
  induction cs as [|c cs IH]; intros s H; [exact H|].
  cbn [perform_all]. apply IH, perform_keeps_flag, H.
Qed.


(** ** Requirements are copies *)

(** C1, as the code has it: a task stores copies of the tasks it depends
    on, made when it is constructed, and a call reads the flags of these
    copies.  When each of A, B, C (on A and B), D (on C) is constructed
    once the tasks it depends on have been invoked, and the works return,
    the calls A, B, C, D in this order run all four works, each on the
    world the previous one left, and all four tasks report satisfied. *)
Theorem C1_constructed_in_turn_all_run
        (ha hb hc hd : Captures)
        (ga gb gc gd : Captures -> World Env -> Captures * World Env)
        (st : Store Exn Env Captures) w :
  let a := returning ha ga in
  let b := returning hb gb in
  let c := returning hc gc in
  let d := returning hd gd in
  let wa := left_by (call a w) in
  let wb := left_by (call b wa) in
  let wc := left_by (call c wb) in
  let run := exec (constructed_in_turn a b c d) (mkMachine st w) in
  map (reports_satisfied run) ["A"; "B"; "C"; "D"] =
  [Some true; Some true; Some true; Some true] /\
  final_world run = Some (left_by (call d wc)) /\
  option_map mRequirements (value_of run "C") =
  Some [now_satisfied (after_call (construct a "a" []) (held_after (call a w)));
        now_satisfied (after_call (construct b "b" []) (held_after (call b wa)))].
Proof. repeat split. Qed.

End Properties.

(** ** The properties at work on concrete programs *)

(** main.cpp prints one line for [a] and one diagnostic each for the
    blocked [c] and [d]. *)
Example main_prints :
  printed (exec Demo.main Demo.machine0) =
  Some (("a() executed" ++ newline)
          ++ diagnostic "c" "b" ++ diagnostic "d" "c").
Proof. reflexivity. Qed.

(** Calling the original after the copy was taken does not reach the
    copy: a variable other than the one invoked keeps its value. *)
Lemma invoke_leaves_other_variables {Exn Env Captures : Type}
      (x y : string) (m m' : Machine Exn Env Captures) :
  x <> y ->
  exec_stmt (Invoke y) m = Finished m' ->
  store m' x = store m x.
Proof.
  intros Hxy. cbn [exec_stmt].
  destruct (store m y) as [t|]; [|discriminate].
  destruct (invoke t (outside m)); [|discriminate].
  intros H. injection H as <-. cbn [store]. unfold assign.
  destruct (String.eqb_spec y x); [congruence | reflexivity].
Qed.

(** Requirements x (unsatisfied), y (satisfied), z (unsatisfied): one call
    reports x and z. *)
Lemma three_requirements_two_reports {Exn Env Captures : Type}
      (f : Func Exn Env Captures) (n : string) (x y z : GuardedFunction Exn Env Captures)
      (w : World Env) :
  satisfied x = false -> satisfied y = true -> satisfied z = false ->
  invoke (construct f n [x; y; z]) w =
  Done tt (mkFrame (construct f n [x; y; z])
                   (put_cout w (diagnostic n (name x) ++ diagnostic n (name z)))
                   0).
Proof.
  intros Hx Hy Hz. rewrite invoke_blocked.
  - cbn [mRequirements mName construct].
    rewrite report_cons, Hx, report_cons, Hy, report_cons, Hz, report_nil.
    cbn [append]. now rewrite append_nil_r.
  - cbn [mRequirements construct forallb]. now rewrite Hx.
Qed.

(** C1, at a concrete input: A, B, C (on A and B), D (on C) are all
    constructed, then A, B, C, D are called in this order.  A and B report
    satisfied, but C still holds the copies of A and B made before their
    calls, whose flags are false: C and D are blocked, their works do not
    run, and they do not report satisfied. *)
Lemma C1_constructed_first_blocked :
  let run := exec Demo.constructed_first Demo.machine0 in
  map (reports_satisfied run) ["A"; "B"; "C"; "D"] =
  [Some true; Some true; Some false; Some false] /\
  option_map (fun t => map satisfied (mRequirements t)) (value_of run "C") =
  Some [false; false] /\
  printed run =
  Some (("a() executed" ++ newline) ++ ("b() executed" ++ newline)
          ++ diagnostic "c" "a" ++ diagnostic "c" "b"
          ++ diagnostic "d" "c").
Proof. repeat split. Qed.

(** C2, at a concrete input: the call of [task_c] of main.cpp writes the
    names between backquotes and ends the line; the text is not the line
    with apostrophes, with or without a line feed after it. *)
Lemma C2_apostrophes_not_written :
  let out := cout (world (frame_of (invoke Demo.task_c Demo.start))) in
  out = "Dependency `b` not met. Blocking `c`" ++ newline /\
  out <> spec_diagnostic "c" "b" /\
  out <> spec_diagnostic "c" "b" ++ newline.
Proof. cbv zeta. repeat split; vm_compute; discriminate. Qed.

Lemma C2_witness :
  unmet (mRequirements Demo.task_c) <> [] /\
  invoke Demo.task_c Demo.start =
  Done tt (mkFrame Demo.task_c
             (mkWorld ("Dependency `b` not met. Blocking `c`" ++ newline) 0)
             0).
Proof.
  assert (H : unmet (mRequirements Demo.task_c) <> []) by (simpl; discriminate).
  split; [exact H|].
  exact (C2_diagnostic_between_backquotes string nat nat Demo.task_c Demo.start H).
Defined.

Lemma C3_witness :
  In Demo.z (mRequirements Demo.xyz) /\
  satisfied Demo.z = false /\
  exists before after,
    mRequirements Demo.xyz = (before ++ Demo.z :: after)%list /\
    invoke Demo.xyz Demo.start =
    Done tt
      (mkFrame Demo.xyz
         (put_cout Demo.start
            (report "t" before ++ diagnostic "t" "z" ++ report "t" after))
         0).
Proof.
  assert (Hin : In Demo.z (mRequirements Demo.xyz)) by (simpl; auto).
  assert (Hz : satisfied Demo.z = false) by reflexivity.
  split; [exact Hin|]. split; [exact Hz|].
  exact (C3_every_unmet_requirement_reported
           string nat nat Demo.xyz Demo.start Demo.z Hin Hz).
Defined.


Lemma C5_witness :
  In Demo.x (mRequirements Demo.xyz) /\
  satisfied Demo.x = false /\
  entered (frame_of (invoke Demo.xyz Demo.start)) = 0 /\
  satisfied (this (frame_of (invoke Demo.xyz Demo.start))) = false /\
  env (world (frame_of (invoke Demo.xyz Demo.start))) = 0.
Proof.
  assert (Hin : In Demo.x (mRequirements Demo.xyz)) by (simpl; auto).
  assert (Hx : satisfied Demo.x = false) by reflexivity.
  destruct (C5_closed_gate_skips_work
              string nat nat Demo.xyz Demo.start Demo.x Hin Hx)
    as (_ & Hentered & _ & Hflag & Henv).
  split; [exact Hin|]. split; [exact Hx|]. split; [exact Hentered|].
  split; [exact Hflag | exact Henv].
Defined.

(** [one_shot] is called, asked its flag and its name, and called again:
    the second call throws, the flag stays set. *)
Lemma C6_witness :
  let s := frame_of (invoke Demo.one_shot Demo.start) in
  satisfied (this s) = true /\
  thrown (perform CallInvoke s) = Some "again" /\
  satisfied
    (this (perform_all [CallSatisfied; CallName; CallInvoke; CallSatisfied] s))
  = true.
Proof.
  cbv zeta.
  assert (H : satisfied (this (frame_of (invoke Demo.one_shot Demo.start)))
              = true) by reflexivity.
  split; [exact H|]. split; [reflexivity|].
  exact (proj2 (C6_flag_starts_false_and_never_resets
                  string nat nat Demo.once "once" []
                  [CallSatisfied; CallName; CallInvoke; CallSatisfied])
               _ H).
Defined.

Lemma C7_witness :
  (forall req, In req (mRequirements Demo.faulty) -> satisfied req = true) /\
  call (mFunction Demo.faulty) Demo.start = Raised "boom" 0 Demo.start /\
  invoke Demo.faulty Demo.start =
  Throw "boom" (mkFrame (after_call Demo.faulty 0) Demo.start 1) /\
  satisfied (this (frame_of (invoke Demo.faulty Demo.start))) = false.
Proof.
  assert (Hall : forall req, In req (mRequirements Demo.faulty) ->
                             satisfied req = true)
    by (simpl; intros req []).
  assert (Hrun : call (mFunction Demo.faulty) Demo.start
                 = Raised "boom" 0 Demo.start)
    by reflexivity.
  split; [exact Hall|]. split; [exact Hrun|].
  destruct (C7_fault_passes_through
              string nat nat Demo.faulty Demo.start "boom" 0 Demo.start
              Hall Hrun)
    as (Hthrow & _ & _ & _ & Hflag).
  split; [exact Hthrow | exact (Hflag eq_refl)].
Defined.

Lemma C8_witness :
  mRequirements Demo.bumper = [] /\
  let s1 := frame_of (invoke Demo.bumper Demo.start) in
  let s2 := frame_of (invoke (this s1) (world s1)) in
  entered s1 = 1 /\ entered s2 = 1 /\
  world s1 = mkWorld "" 1 /\ world s2 = mkWorld "" 2.
Proof.
  split; [reflexivity|].
  exact (C8_second_call_runs_work_again string nat nat Demo.bumper Demo.start
                                        eq_refl).
Defined.


Lemma C9_witness :
  mRequirements Demo.xyz = ([] ++ Demo.x :: [Demo.y] ++ Demo.z :: [])%list /\
  satisfied Demo.x = false /\
  satisfied Demo.z = false /\
  cout (world (frame_of (invoke Demo.xyz Demo.start))) =
  diagnostic "t" "x" ++ diagnostic "t" "z".
Proof.
  split; [reflexivity|]. split; [reflexivity|]. split; [reflexivity|].
  exact (C9_diagnostics_in_construction_order
           string nat nat Demo.xyz Demo.start [] Demo.x [Demo.y] Demo.z []
           eq_refl eq_refl eq_refl).
Defined.

(** * Beyond single calls: call sequences *)

Lemma put_cout_nil {Env : Type} (w : World Env) : put_cout w "" = w.
Proof. destruct w as [out e]. unfold put_cout. simpl. now rewrite append_nil_r. Qed.

Lemma put_cout_put_cout {Env : Type} (w : World Env) (a b : string) :
  put_cout (put_cout w a) b = put_cout w (a ++ b).
Proof. unfold put_cout. simpl. now rewrite append_assoc. Qed.

Section CallSequences.

Variables Exn Env Captures : Type.

Implicit Types (t req : GuardedFunction Exn Env Captures) (w : World Env).
Implicit Types (reqs : list (GuardedFunction Exn Env Captures)) (s : Frame Exn Env Captures).
Implicit Types (c : Call) (cs : list Call).

(** The call operator on any frame, by the state of the gate. *)
Lemma operator_call_frame s :
  frame_of (operator_call s) =
  if forallb satisfied (mRequirements (this s)) then
    match call (mFunction (this s)) (world s) with
    | Returned c w' =>
        mkFrame (now_satisfied (after_call (this s) c)) w' (S (entered s))
    | Raised _ c w' => mkFrame (after_call (this s) c) w' (S (entered s))
    end
  else
    mkFrame (this s)
            (put_cout (world s)
                      (report (mName (this s)) (mRequirements (this s))))
            (entered s).
Proof.
  destruct s as [t [out e] n]. rewrite operator_call_run. cbv zeta.
  cbn [this world entered].
  destruct (forallb satisfied (mRequirements t)) eqn:E; [|reflexivity].
  assert (Hrep : report (mName t) (mRequirements t) = "").
  { apply all_met_report. now apply forallb_forall. }
  rewrite Hrep, append_nil_r.
  destruct (call (mFunction t) (mkWorld out e)); reflexivity.
Qed.

Lemma perform_frame c s :
  frame_of (perform c s) =
  match c with
  | CallInvoke => frame_of (operator_call s)
  | _ => s
  end.
Proof. destruct c; [apply perform_invoke_frame | reflexivity | reflexivity]. Qed.

(** One call on a task whose gate is closed. *)
Lemma perform_blocked c s :
  forallb satisfied (mRequirements (this s)) = false ->
  frame_of (perform c s) =
  mkFrame (this s)
          (put_cout (world s)
             (times (invocations [c])
                    (report (mName (this s)) (mRequirements (this s)))))
          (entered s).
Proof.
  intros H. rewrite perform_frame.
  destruct c; cbn [invocations times].
  - rewrite operator_call_frame, H. now rewrite append_nil_r.
  - rewrite put_cout_nil. now destruct s.
  - rewrite put_cout_nil. now destruct s.
Qed.

(** X2: a task that stores an unsatisfied requirement is blocked for
    good.  Whatever sequence of calls of the call operator, satisfied()
    and name() it receives, the object stays as it is (its flag does not
    get set), the work is never entered, and all the world gains is the
    same report on the stream, once per call of the call operator. *)
Theorem blocked_task_only_repeats_its_report cs s req :
  In req (mRequirements (this s)) ->
  satisfied req = false ->
  perform_all cs s =
  mkFrame (this s)
          (put_cout (world s)
             (times (invocations cs)
                    (report (mName (this s)) (mRequirements (this s)))))
          (entered s).
Proof.
  intros Hin Hreq.
  assert (H : forallb satisfied (mRequirements (this s)) = false)
    by exact (some_unmet_forallb _ _ _ _ _ Hin Hreq).
  clear Hin Hreq. revert s H.
  induction cs as [|c cs IH]; intros s H.
  - cbn [perform_all invocations times]. rewrite put_cout_nil. now destruct s.
  - cbn [perform_all]. rewrite (perform_blocked c s H).
    rewrite IH by exact H. cbn [this world entered].
    rewrite put_cout_put_cout.
    destruct c; cbn [invocations times]; try reflexivity.
    now rewrite append_nil_r.
Qed.

(** What a call never changes, along a sequence of calls: the name, the
    stored requirements and the body of the callable. *)
Lemma perform_all_members cs : forall s,
  mName (this (perform_all cs s)) = mName (this s) /\
  body (mFunction (this (perform_all cs s))) = body (mFunction (this s)) /\
  mRequirements (this (perform_all cs s)) = mRequirements (this s).
Proof.
  induction cs as [|c cs IH]; intros s; [repeat split|].
  cbn [perform_all].
  destruct (IH (frame_of (perform c s))) as (Hn & Hf & Hr).
  rewrite Hn, Hf, Hr, perform_frame.
  destruct c; [|repeat split ..].
  destruct (operator_call_this _ _ _ s) as [E|[h [E|E]]]; rewrite E;
    repeat split.
Qed.

(** X3: a task whose stored requirements are all satisfied runs its work
    at every call of the call operator, whatever its own flag says and
    whether or not earlier runs threw: along any sequence of calls the
    work is entered once per call of the call operator. *)
Theorem open_gate_runs_work_at_every_call cs s :
  (forall req, In req (mRequirements (this s)) -> satisfied req = true) ->
  entered (perform_all cs s) = entered s + invocations cs.
Proof.
  intros Hall.
  assert (H : forallb satisfied (mRequirements (this s)) = true)
    by (apply forallb_forall; exact Hall).
  clear Hall. revert s H.
  induction cs as [|c cs IH]; intros s H.
  - cbn [perform_all invocations]. lia.
  - cbn [perform_all].
    assert (Hreqs : mRequirements (this (frame_of (perform c s)))
                    = mRequirements (this s)).
    { exact (proj2 (proj2 (perform_all_members [c] s))). }
    rewrite IH by (rewrite Hreqs; exact H).
    rewrite perform_frame.
    destruct c; cbn [invocations]; try lia.
    rewrite operator_call_frame, H.
    destruct (call (mFunction (this s)) (world s)); cbn [entered]; lia.
Qed.

(** X5: name() answers the string given to createGuardedFunction,
    whatever calls the task has received before, and leaves the state as
    it is. *)
Theorem name_answers_construction_name (f : Func Exn Env Captures) n deps w k cs :
  let s := perform_all cs (mkFrame (createGuardedFunction f n deps) w k) in
  perform CallName s = Done (VName n) s.
Proof.
  cbv zeta.
  set (s0 := mkFrame (createGuardedFunction f n deps) w k).
  unfold perform, bind, member, ret, name.
  now rewrite (proj1 (perform_all_members cs s0)).
Qed.

(** The flag and the counter after one call. *)
Lemma perform_flag_cases c s :
  let s' := frame_of (perform c s) in
  (satisfied (this s') = satisfied (this s) /\
   mRequirements (this s') = mRequirements (this s) /\
   entered s <= entered s') \/
  (satisfied (this s') = true /\ entered s' = S (entered s) /\
   mRequirements (this s') = mRequirements (this s) /\
   forallb satisfied (mRequirements (this s)) = true).
Proof.
  cbv zeta. rewrite perform_frame.
  destruct c; [|left; repeat split; lia ..].
  rewrite operator_call_frame.
  destruct (forallb satisfied (mRequirements (this s))) eqn:E.
  - destruct (call (mFunction (this s)) (world s)); cbn [this entered].
    + right. repeat split.
    + left. repeat split. lia.
  - left. cbn [this entered]. repeat split. lia.
Qed.

Lemma set_flag_was_earned cs : forall s,
  satisfied (this (perform_all cs s)) = true ->
  (satisfied (this s) = true /\ entered s <= entered (perform_all cs s)) \/
  (entered s < entered (perform_all cs s) /\
   forallb satisfied (mRequirements (this s)) = true).
Proof.
  induction cs as [|c cs IH]; intros s H.
  - left. split; [exact H | cbn [perform_all]; lia].
  - cbn [perform_all] in *.
    destruct (IH _ H) as [[Hflag Hle] | [Hlt Hgate]];
      destruct (perform_flag_cases c s)
        as [(Esat & Ereqs & Hent) | (Hset & Hent & Hreqs & Hopen)].
    + left. rewrite Esat in Hflag. split; [exact Hflag | lia].
    + right. split; [lia | exact Hopen].
    + right. rewrite Ereqs in Hgate. split; [lia | exact Hgate].
    + right. split; [lia | exact Hopen].
Qed.

(** X7: what a set flag tells.  When a task made by the constructor
    answers satisfied() true after some sequence of calls, its work has
    been entered at least once in that sequence and every stored
    requirement answers satisfied() true. *)
Theorem satisfied_flag_means_work_was_run (f : Func Exn Env Captures) n reqs w cs :
  let s := perform_all cs (mkFrame (construct f n reqs) w 0) in
  satisfied (this s) = true ->
  1 <= entered s /\
  (forall req, In req reqs -> satisfied req = true).
Proof.
  cbv zeta. intros H.
  destruct (set_flag_was_earned cs _ H) as [[Hflag _] | [Hlt Hgate]].
  - discriminate Hflag.
  - cbn [entered this construct mRequirements] in *.
    split; [lia|]. now apply forallb_forall.
Qed.

(** X8: the call operator does not read the flag of its own object.  Two
    tasks with the same callable (holding the same), name and stored
    requirements, called in the same world, complete the same way, leave
    the same world and the same thing held by the callable, and enter the
    work the same number of times, whatever their flags. *)
Theorem own_flag_is_not_an_input t1 t2 w :
  mFunction t1 = mFunction t2 ->
  mName t1 = mName t2 ->
  mRequirements t1 = mRequirements t2 ->
  thrown (invoke t1 w) = thrown (invoke t2 w) /\
  world (frame_of (invoke t1 w)) = world (frame_of (invoke t2 w)) /\
  entered (frame_of (invoke t1 w)) = entered (frame_of (invoke t2 w)) /\
  mFunction (this (frame_of (invoke t1 w))) =
  mFunction (this (frame_of (invoke t2 w))).
Proof.
  intros Hf Hn Hr. destruct w as [out e]. unfold invoke.
  rewrite !operator_call_run. cbv zeta. rewrite Hf, Hn, Hr.
  destruct (forallb satisfied (mRequirements t2));
    [|cbn [frame_of this]; repeat split; exact Hf].
  destruct (call (mFunction t2) _);
    cbn [frame_of this now_satisfied after_call mFunction];
    rewrite ?Hf; repeat split.
Qed.

End CallSequences.

(** * Beyond single calls: whole programs *)

Section Programs.

Variables Exn Env Captures : Type.

Implicit Types (t req : GuardedFunction Exn Env Captures) (w : World Env).
Implicit Types (reqs copies : list (GuardedFunction Exn Env Captures)).
Implicit Types (st : Store Exn Env Captures) (m : Machine Exn Env Captures).
Implicit Types (p : list (Stmt Exn Env Captures)) (x y : string).

Lemma assign_same x t st : assign x t st x = Some t.
Proof. unfold assign. now rewrite String.eqb_refl. Qed.

Lemma assign_other x y t st : x <> y -> assign y t st x = st x.
Proof.
  intros H. unfold assign.
  destruct (String.eqb_spec y x); [congruence | reflexivity].
Qed.

(** What a call may do to the object: nothing, or, the gate being open,
    change what its callable holds, with or without setting its flag. *)
Lemma invoke_this_cases t w :
  this (frame_of (invoke t w)) = t \/
  (forallb satisfied (mRequirements t) = true /\
   exists c,
     this (frame_of (invoke t w)) = after_call t c \/
     this (frame_of (invoke t w)) = now_satisfied (after_call t c)).
Proof.
  unfold invoke. rewrite operator_call_frame. cbn [this world entered].
  destruct (forallb satisfied (mRequirements t)); [|now left].
  destruct (call (mFunction t) w) as [c w'|x c w'];
    right; (split; [reflexivity|]); exists c; [now right | now left].
Qed.

(** The machine after [x();] on a variable that exists. *)
Lemma exec_invoke x t m :
  store m x = Some t ->
  machine_of (exec_stmt (Invoke x) m) =
  Some (mkMachine (assign x (this (frame_of (invoke t (outside m)))) (store m))
                  (world (frame_of (invoke t (outside m))))).
Proof.
  intros H. cbn [exec_stmt]. rewrite H.
  destruct (invoke t (outside m)); reflexivity.
Qed.

Lemma exec_cons s p m :
  machine_of (exec (s :: p) m) =
  match exec_stmt s m with
  | Finished m1 => machine_of (exec p m1)
  | stopped => machine_of stopped
  end.
Proof. cbn [exec]. destruct (exec_stmt s m); reflexivity. Qed.

(** ** Copies are not refreshed *)

Lemma exec_stmt_keeps_blocked (s : Stmt Exn Env Captures) m x t req :
  store m x = Some t ->
  In req (mRequirements t) ->
  satisfied req = false ->
  creates x s = false ->
  forall m1, machine_of (exec_stmt s m) = Some m1 -> store m1 x = Some t.
Proof.
  intros Hx Hin Hreq Hs m1.
  destruct s as [y f n deps | y].
  - cbn [creates] in Hs. apply String.eqb_neq in Hs.
    cbn [exec_stmt]. destruct (values_of (store m) deps); [|discriminate].
    intros [= <-]. cbn [store]. now rewrite assign_other.
  - destruct (store m y) as [ty|] eqn:Hy.
    + rewrite (exec_invoke y ty m Hy). intros [= <-]. cbn [store].
      destruct (String.eqb_spec x y) as [<-|Hne].
      * rewrite assign_same. rewrite Hx in Hy. injection Hy as <-.
        rewrite (invoke_blocked _ _ _ t (outside m)
                   (some_unmet_forallb _ _ _ _ _ Hin Hreq)).
        reflexivity.
      * now rewrite assign_other.
    + cbn [exec_stmt]. rewrite Hy. discriminate.
Qed.

(** X1: the copies a task stores are never refreshed.  Once a variable
    holds a task that stores an unsatisfied copy of a requirement, no
    later statement other than a new definition of that variable changes
    it: calls of the original it was copied from, of any other task and
    of the task itself leave it as it is, blocked and unsatisfied,
    wherever the program ends or stops on a throw. *)
Theorem stored_copy_is_never_refreshed p : forall m x t req m',
  store m x = Some t ->
  In req (mRequirements t) ->
  satisfied req = false ->
  forallb (fun s => negb (creates x s)) p = true ->
  machine_of (exec p m) = Some m' ->
  store m' x = Some t.
Proof.
  induction p as [|s p IH]; intros m x t req m' Hx Hin Hreq Hp Hrun.
  - cbn in Hrun. now injection Hrun as <-.
  - cbn [forallb] in Hp. apply andb_prop in Hp as [Hs Hp].
    apply negb_true_iff in Hs.
    rewrite exec_cons in Hrun.
    pose proof (exec_stmt_keeps_blocked s m x t req Hx Hin Hreq Hs) as Hstep.
    destruct (exec_stmt s m) as [m1 | e m1 |].
    + apply (IH m1 x t req m' (Hstep m1 eq_refl) Hin Hreq Hp Hrun).
    + cbn [machine_of] in Hrun. injection Hrun as <-. now apply Hstep.
    + discriminate Hrun.
Qed.

(** ** A set flag vouches for the whole requirement tree *)

(** Induction on a task with the hypothesis for all stored requirements. *)
Lemma GuardedFunction_tree_ind (P : GuardedFunction Exn Env Captures -> Prop) :
  (forall f n reqs flag,
      Forall P reqs -> P (mkGuardedFunction f n reqs flag)) ->
  forall t, P t.
Proof.
  intros step.
  exact (fix go t : P t :=
           match t with
           | mkGuardedFunction f n reqs flag =>
               step f n reqs flag
                    ((fix all l : Forall P l :=
                        match l with
                        | [] => Forall_nil P
                        | r :: l' => Forall_cons r (go r) (all l')
                        end) reqs)
           end).
Qed.

Lemma coherent_tree_satisfied t :
  coherent t = true -> satisfied t = true -> tree_satisfied t = true.
Proof.
  induction t as [f n reqs flag IH] using GuardedFunction_tree_ind.
  cbn [coherent tree_satisfied satisfied mSatisfied].
  intros Hco Hflag. subst flag. cbn [negb orb andb] in *.
  apply andb_prop in Hco as [Hsat Hco].
  rewrite forallb_forall in Hsat, Hco. apply forallb_forall.
  intros r Hr. rewrite Forall_forall in IH.
  apply (IH r Hr (Hco r Hr) (Hsat r Hr)).
Qed.

Lemma coherent_requirements t :
  coherent t = true -> forallb coherent (mRequirements t) = true.
Proof.
  destruct t as [f n reqs flag]. cbn [coherent mRequirements].
  intros H. now apply andb_prop in H.
Qed.

Lemma coherent_now_satisfied t :
  coherent t = true ->
  forallb satisfied (mRequirements t) = true ->
  coherent (now_satisfied t) = true.
Proof.
  intros Hco Hgate. pose proof (coherent_requirements t Hco) as Hreqs.
  unfold now_satisfied. cbn [coherent negb orb]. now rewrite Hgate, Hreqs.
Qed.

Lemma coherent_after_call t c : coherent (after_call t c) = coherent t.
Proof. now destruct t. Qed.

Lemma values_of_stored st deps : forall copies,
  values_of st deps = Some copies ->
  forall t, In t copies -> exists y, st y = Some t.
Proof.
  induction deps as [|d deps IH]; intros copies H t Hin.
  - cbn in H. injection H as <-. destruct Hin.
  - cbn [values_of] in H. destruct (st d) as [td|] eqn:Hd; [|discriminate].
    destruct (values_of st deps) as [ts|]; [|discriminate].
    injection H as <-. destruct Hin as [<-|Hin].
    + now exists d.
    + now apply (IH ts eq_refl).
Qed.

Lemma coherent_assign x t st :
  coherent t = true -> coherent_store st -> coherent_store (assign x t st).
Proof.
  intros Ht Hst y ty. unfold assign.
  destruct (String.eqb x y); [now intros [= <-] | apply Hst].
Qed.

Lemma exec_stmt_coherent (s : Stmt Exn Env Captures) m m1 :
  coherent_store (store m) ->
  machine_of (exec_stmt s m) = Some m1 ->
  coherent_store (store m1).
Proof.
  intros Hst. destruct s as [y f n deps | y].
  - cbn [exec_stmt].
    destruct (values_of (store m) deps) as [copies|] eqn:Hv; [|discriminate].
    intros [= <-]. cbn [store]. apply coherent_assign; [|exact Hst].
    unfold createGuardedFunction, construct. cbn [coherent negb orb andb].
    apply forallb_forall. intros r Hr.
    destruct (values_of_stored _ _ _ Hv r Hr) as [z Hz]. exact (Hst z r Hz).
  - destruct (store m y) as [ty|] eqn:Hy.
    + rewrite (exec_invoke y ty m Hy). intros [= <-]. cbn [store].
      apply coherent_assign; [|exact Hst].
      destruct (invoke_this_cases ty (outside m))
        as [E | [Hgate [c [E|E]]]]; rewrite E.
      * exact (Hst y ty Hy).
      * rewrite coherent_after_call. exact (Hst y ty Hy).
      * apply coherent_now_satisfied; [|exact Hgate].
        rewrite coherent_after_call. exact (Hst y ty Hy).
    + cbn [exec_stmt]. rewrite Hy. discriminate.
Qed.

Lemma exec_coherent p : forall m m',
  coherent_store (store m) ->
  machine_of (exec p m) = Some m' ->
  coherent_store (store m').
Proof.
  induction p as [|s p IH]; intros m m' Hst Hrun.
  - cbn in Hrun. now injection Hrun as <-.
  - rewrite exec_cons in Hrun.
    pose proof (exec_stmt_coherent s m) as Hstep.
    destruct (exec_stmt s m) as [m1 | e m1 |].
    + exact (IH m1 m' (Hstep m1 Hst eq_refl) Hrun).
    + cbn [machine_of] in Hrun. injection Hrun as <-. now apply Hstep.
    + discriminate Hrun.
Qed.

(** X4: a set flag vouches for the whole requirement tree.  In any
    program of definitions and calls that starts without variables,
    wherever it ends or stops on a throw, a variable that answers
    satisfied() true holds a task in which every stored copy, at every
    depth, answers satisfied() true. *)
Theorem satisfied_task_has_satisfied_tree p w m x t :
  machine_of (exec p (mkMachine no_variables w)) = Some m ->
  store m x = Some t ->
  satisfied t = true ->
  tree_satisfied t = true.
Proof.
  intros Hrun Hx Hflag. apply coherent_tree_satisfied; [|exact Hflag].
  refine (exec_coherent p _ m _ Hrun x t Hx).
  intros y ty Hy. discriminate Hy.
Qed.

(** ** main.cpp *)

(** X6: the body of main for any four callables of which the first one
    returns.  The work of [a] runs; [task_c] holds an unsatisfied copy of
    [task_b] and [task_d] an unsatisfied copy of [task_c], so after the
    work of [a] the program writes the two diagnostics and nothing else,
    never runs the works of [b], [c] and [d], and ends with only [task_a]
    satisfied. *)
Theorem main_runs_a_and_blocks_c_and_d
        (ha : Captures) (ga : Captures -> World Env -> Captures * World Env)
        (fb fc fd : Func Exn Env Captures) st w :
  let a := returning ha ga in
  let run := exec (main_body a fb fc fd) (mkMachine st w) in
  final_world run =
  Some (put_cout (left_by (call a w))
                 (diagnostic "c" "b" ++ diagnostic "d" "c")) /\
  map (reports_satisfied run) ["task_a"; "task_b"; "task_c"; "task_d"] =
  [Some true; Some false; Some false; Some false].
Proof.
  cbv zeta. split; [|reflexivity].
  cbn. unfold put_cout. cbn. now rewrite !append_assoc.
Qed.

End Programs.

(** ** The further properties at work on concrete programs *)

(** The general body of main at the four lambdas of main.cpp. *)
Example main_is_main_body :
  Demo.main = main_body Demo.a Demo.b Demo.c Demo.d.
Proof. reflexivity. Qed.

(** [C] is defined from [A] before [A] is called: the two calls of [A]
    run its work twice, and [C] is the same blocked object after its own
    two calls. *)
Lemma X1_witness :
  let ta : Demo.Task := construct Demo.bump "a" [] in
  let tc : Demo.Task := construct Demo.bump "c" [ta] in
  let run := exec dependent_first Demo.machine0 in
  value_of run "C" = Some tc /\
  reports_satisfied run "A" = Some true /\
  option_map (@env nat) (final_world run) = Some 2.
Proof.
  cbv zeta. split; [|split; vm_compute; reflexivity].
  set (ta := construct Demo.bump "a" [] : Demo.Task).
  set (tc := construct Demo.bump "c" [ta] : Demo.Task).
  set (m := mkMachine (assign "C" tc (assign "A" ta no_variables)) Demo.start).
  set (p := [Invoke "A"; Invoke "C"; Invoke "A"; Invoke "C"]
            : list (Stmt string nat nat)).
  set (m' := match machine_of (exec p m) with Some m1 => m1 | None => m end).
  assert (Hx : store m "C" = Some tc) by (vm_compute; reflexivity).
  assert (Hreq : satisfied ta = false) by reflexivity.
  assert (Hp : forallb (fun s => negb (creates "C" s)) p = true)
    by (vm_compute; reflexivity).
  assert (Hrun : machine_of (exec p m) = Some m') by (vm_compute; reflexivity).
  pose proof (stored_copy_is_never_refreshed
                string nat nat p m "C" tc ta m'
                Hx (or_introl eq_refl) Hreq Hp Hrun) as H.
  vm_compute in H. vm_compute. exact H.
Defined.

Lemma X2_witness :
  In Demo.x (mRequirements Demo.xyz) /\
  satisfied Demo.x = false /\
  perform_all [CallInvoke; CallSatisfied; CallInvoke; CallName]
              (mkFrame Demo.xyz Demo.start 0) =
  mkFrame Demo.xyz
          (put_cout Demo.start
             (times 2 (diagnostic "t" "x" ++ diagnostic "t" "z")))
          0.
Proof.
  assert (Hin : In Demo.x (mRequirements Demo.xyz)) by (simpl; auto).
  split; [exact Hin|]. split; [reflexivity|].
  exact (blocked_task_only_repeats_its_report
           string nat nat [CallInvoke; CallSatisfied; CallInvoke; CallName]
           (mkFrame Demo.xyz Demo.start 0) Demo.x Hin eq_refl).
Defined.

(** [one_shot] throws at its second and third call; the work is entered
    at each of the three calls all the same. *)
Lemma X3_witness :
  (forall req, In req (mRequirements Demo.one_shot) -> satisfied req = true) /\
  thrown (invoke (now_satisfied Demo.one_shot) (mkWorld "" 1)) = Some "again" /\
  entered (perform_all [CallInvoke; CallInvoke; CallSatisfied; CallInvoke]
                       (mkFrame Demo.one_shot Demo.start 0)) = 3.
Proof.
  assert (Hall : forall req, In req (mRequirements Demo.one_shot) ->
                             satisfied req = true)
    by (simpl; intros req []).
  split; [exact Hall|]. split; [reflexivity|].
  exact (open_gate_runs_work_at_every_call
           string nat nat [CallInvoke; CallInvoke; CallSatisfied; CallInvoke]
           (mkFrame Demo.one_shot Demo.start 0) Hall).
Defined.

Lemma X4_witness :
  let run := exec (constructed_in_turn Demo.a Demo.b Demo.c Demo.d)
                  Demo.machine0 in
  reports_satisfied run "D" = Some true /\
  option_map tree_satisfied (value_of run "D") = Some true.
Proof.
  cbv zeta. split; [vm_compute; reflexivity|].
  set (p := constructed_in_turn Demo.a Demo.b Demo.c Demo.d).
  set (m := match machine_of (exec p Demo.machine0) with
            | Some m' => m'
            | None => Demo.machine0
            end).
  set (td := match store m "D" with Some t => t | None => Demo.x end).
  assert (Hrun : machine_of (exec p (mkMachine no_variables Demo.start))
                 = Some m) by (vm_compute; reflexivity).
  assert (Hd : store m "D" = Some td) by (vm_compute; reflexivity).
  assert (Hflag : satisfied td = true) by (vm_compute; reflexivity).
  pose proof (satisfied_task_has_satisfied_tree
                string nat nat p Demo.start m "D" td Hrun Hd Hflag) as H.
  transitivity (Some (tree_satisfied td));
    [vm_compute; reflexivity | exact (f_equal Some H)].
Defined.

Lemma X7_witness :
  let s := perform_all [CallInvoke; CallName]
                       (mkFrame (construct Demo.bump "t" [Demo.y]) Demo.start 0) in
  satisfied (this s) = true /\
  1 <= entered s /\
  (forall req, In req [Demo.y] -> satisfied req = true).
Proof.
  cbv zeta. split; [reflexivity|].
  exact (satisfied_flag_means_work_was_run
           string nat nat Demo.bump "t" [Demo.y] Demo.start
           [CallInvoke; CallName] eq_refl).
Defined.

Lemma X8_witness :
  satisfied Demo.bumper = false /\
  satisfied (now_satisfied Demo.bumper) = true /\
  world (frame_of (invoke Demo.bumper Demo.start)) =
  world (frame_of (invoke (now_satisfied Demo.bumper) Demo.start)) /\
  entered (frame_of (invoke Demo.bumper Demo.start)) =
  entered (frame_of (invoke (now_satisfied Demo.bumper) Demo.start)).
Proof.
  split; [reflexivity|]. split; [reflexivity|].
  destruct (own_flag_is_not_an_input
              string nat nat Demo.bumper (now_satisfied Demo.bumper) Demo.start
              eq_refl eq_refl eq_refl)
    as (_ & Hworld & Hentered & _).
  split; [exact Hworld | exact Hentered].
Defined.
